(** * SLIP framing (RFC 1055 byte stuffing): a shallow embedding of slip.go

    The Go package wraps an [io.Writer] in a [Writer] whose [WritePacket]
    assembles one frame in a private [bytes.Buffer] and hands it to the
    underlying writer, and wraps an [io.Reader] in a [Reader] whose
    [ReadPacket] pulls one byte per [Read] call and un-stuffs it.

    Bytes are [Byte.byte]; Go's [error] is [option string] ([None] is the Go
    [nil]); the two interfaces are type classes over an explicit state; the
    unbounded [for] loop of [ReadPacket] is a fixpoint on a number of loop
    iterations.  The mutexes only serialise whole calls and are not part of
    this sequential model. *)

From Stdlib Require Import List ZArith Lia Bool String.
From Stdlib Require Import Strings.Byte.
Import ListNotations.

Set Implicit Arguments.
Open Scope list_scope.

(** ** Go's [error] and the [io] interfaces *)

Definition error : Type := option string.

Definition is_nil (e : error) : bool :=
  match e with None => true | Some _ => false end.

Module io.

Definition EOF : error := Some "EOF"%string.

(** The outcome of [Read(readBuf)] on the one-byte slice [readBuf]: the
    count [n], the content of [readBuf[0]] after the call (what the reader
    stored when [n = 1]) and the error. *)
Record ReadResult : Type := mkRead {
  rd_n : Z;
  rd_byte : byte;
  rd_err : error
}.

Class Reader (R : Type) : Type :=
  Read : R -> ReadResult * R.

Class Writer (W : Type) : Type :=
  Write : W -> list byte -> (Z * error) * W.

End io.

(** ** The part of [bytes.Buffer] that slip.go uses

    A buffer that is only appended to; [WriteByte] always returns a nil
    error, as the Go library documents. *)
Module bytes.

Definition Buffer : Type := list byte.

Definition empty : Buffer := [].

Definition WriteByte (buf : Buffer) (c : byte) : Buffer * error :=
  (buf ++ [c], None).

Definition Bytes (buf : Buffer) : list byte := buf.

Definition Len (buf : Buffer) : Z := Z.of_nat (List.length buf).

End bytes.

(** ** Constants (slip.go, lines 33-38) *)

Definition END : byte := xc0.
Definition ESC : byte := xdb.
Definition ESC_END : byte := xdc.
Definition ESC_ESC : byte := xdd.

(** ** Writer.WritePacket (slip.go, lines 40-98) *)

(** Frame assembly either carries on with the grown buffer or returns early
    with the error of a [WriteByte]. *)
Definition Asm : Type := bytes.Buffer -> error + bytes.Buffer.

(** [if err := buf.WriteByte(c); err != nil { return err }] *)
Definition put (c : byte) : Asm :=
  fun buf =>
    let '(buf', err) := bytes.WriteByte buf c in
    if is_nil err then inr buf' else inl err.

Definition seq (a b : Asm) : Asm :=
  fun buf => match a buf with
             | inl err => inl err
             | inr buf' => b buf'
             end.

Notation "a ;; b" := (seq a b) (at level 61, right associativity).

Definition skip : Asm := fun buf => inr buf.

(** The [switch b] of the encoding loop. *)
Definition stuff (b : byte) : Asm :=
  if Byte.eqb b END then put ESC ;; put ESC_END
  else if Byte.eqb b ESC then put ESC ;; put ESC_ESC
  else put b.

(** [for _, b := range p { ... }] *)
Fixpoint for_range (p : list byte) (body : byte -> Asm) : Asm :=
  match p with
  | [] => skip
  | b :: p' => body b ;; for_range p' body
  end.

Definition assemble (p : list byte) : Asm :=
  put END ;; for_range p stuff ;; put END.

Definition WritePacket {W : Type} `{io.Writer W} (w : W) (p : list byte)
  : error * W :=
  match assemble p bytes.empty with
  | inl err => (err, w)
  | inr buf =>
      let '((_, err), w') := io.Write w (bytes.Bytes buf) in
      (err, w')
  end.

(** ** Reader.ReadPacket (slip.go, lines 105-181) *)

Record Result : Type := mkResult {
  res_p : list byte;
  res_isPrefix : bool;
  res_err : error
}.

(** [n == 0 || err != nil] *)
Definition read_failed (rd : io.ReadResult) : bool :=
  (io.rd_n rd =? 0)%Z || negb (is_nil (io.rd_err rd)).

(** The inner [switch readBuf[0]] after an ESC. *)
Definition unescape (c : byte) : byte :=
  if Byte.eqb c ESC_END then END
  else if Byte.eqb c ESC_ESC then ESC
  else c.

(** The [for] loop, run for at most [fuel] iterations; [None] means that the
    loop has not returned yet. The state is the reader and the accumulation
    buffer; the named result [err] is the error of the latest [Read]. *)
Fixpoint ReadPacket_loop {R : Type} `{io.Reader R}
    (fuel : nat) (r : R) (buf : bytes.Buffer) : option (Result * R) :=
  match fuel with
  | O => None
  | S fuel' =>
      let '(rd, r1) := io.Read r in
      if read_failed rd then
        Some (mkResult (bytes.Bytes buf) true (io.rd_err rd), r1)
      else if Byte.eqb (io.rd_byte rd) END then
        if (bytes.Len buf >? 0)%Z then
          Some (mkResult (bytes.Bytes buf) false (io.rd_err rd), r1)
        else ReadPacket_loop fuel' r1 buf
      else if Byte.eqb (io.rd_byte rd) ESC then
        let '(rd2, r2) := io.Read r1 in
        if read_failed rd2 then
          Some (mkResult (bytes.Bytes buf) true (io.rd_err rd2), r2)
        else
          ReadPacket_loop fuel' r2
            (fst (bytes.WriteByte buf (unescape (io.rd_byte rd2))))
      else
        ReadPacket_loop fuel' r1 (fst (bytes.WriteByte buf (io.rd_byte rd)))
  end.

Definition ReadPacket {R : Type} `{io.Reader R} (fuel : nat) (r : R)
  : option (Result * R) :=
  ReadPacket_loop fuel r bytes.empty.

(** [ReadPacket] called on [r] returns [res] and leaves the reader in [r']. *)
Definition ReadPacket_returns {R : Type} `{io.Reader R}
    (r : R) (res : Result) (r' : R) : Prop :=
  exists fuel, ReadPacket fuel r = Some (res, r').

(** ** Concrete channels *)

(** An in-memory source such as [bytes.Reader]: one byte per call with a nil
    error, then [(0, io.EOF)] for ever. *)
Definition BytesReader : Type := list byte.

#[global] Instance BytesReader_Reader : io.Reader BytesReader :=
  fun s => match s with
           | [] => (io.mkRead 0 x00 io.EOF, [])
           | b :: s' => (io.mkRead 1 b None, s')
           end.

(** A source that replays a script of read outcomes, then is at end of
    file. *)
Definition ScriptReader : Type := list io.ReadResult.

#[global] Instance ScriptReader_Reader : io.Reader ScriptReader :=
  fun s => match s with
           | [] => (io.mkRead 0 x00 io.EOF, [])
           | rd :: s' => (rd, s')
           end.

(** A line that delivers the same byte for ever. *)
Inductive NoiseReader : Type := Noise (c : byte).

#[global] Instance NoiseReader_Reader : io.Reader NoiseReader :=
  fun s => match s with Noise c => (io.mkRead 1 c None, s) end.

(** An in-memory sink such as [bytes.Buffer] used as an [io.Writer]. *)
Definition BytesWriter : Type := list byte.

#[global] Instance BytesWriter_Writer : io.Writer BytesWriter :=
  fun w data => ((Z.of_nat (List.length data), None), w ++ data).

(** A sink that fails every write with its error and stores nothing. *)
Inductive BrokenWriter : Type := Broken (e : string).

#[global] Instance BrokenWriter_Writer : io.Writer BrokenWriter :=
  fun w _ => match w with Broken e => ((0%Z, Some e), w) end.

(** Any writer, with the arguments of the [Write] calls made on it recorded
    in call order. *)
Record Logged (W : Type) : Type := mkLogged {
  inner : W;
  calls : list (list byte)
}.

#[global] Instance Logged_Writer {W : Type} `{io.Writer W}
  : io.Writer (Logged W) :=
  fun l data =>
    let '(out, w') := io.Write (inner l) data in
    (out, mkLogged w' (calls l ++ [data])).

(** The frame that [WritePacket] has in [buf] when it reaches the [Write]
    call (the empty sequence if assembly had returned early). *)
Definition frame (p : list byte) : list byte :=
  match assemble p bytes.empty with
  | inl _ => []
  | inr buf => bytes.Bytes buf
  end.

(** ** The wire format in the words of the specification *)

(** "A stuffed payload byte is: b if b is neither END nor ESC; ESC,
    escaped-END if b = END; ESC, escaped-ESC if b = ESC." *)
Definition spec_stuffed (b : byte) : list byte :=
  if Byte.eqb b END then [ESC; ESC_END]
  else if Byte.eqb b ESC then [ESC; ESC_ESC]
  else [b].

Definition spec_payload (p : list byte) : list byte :=
  flat_map spec_stuffed p.

(** "Every transmitted frame: END, <stuffed payload bytes>, END." *)
Definition spec_frame (p : list byte) : list byte :=
  END :: spec_payload p ++ [END].

(** The stuffed payload region of a frame: the frame without its first and
    its last byte. *)
Definition region (f : list byte) : list byte := removelast (tl f).

(** The four reserved values of the data model, and the two that the encoder
    replaces by an escape sequence. *)
Definition reserved4 (b : byte) : bool :=
  Byte.eqb b END || Byte.eqb b ESC || Byte.eqb b ESC_END || Byte.eqb b ESC_ESC.

Definition reserved2 (b : byte) : bool :=
  Byte.eqb b END || Byte.eqb b ESC.

(** A left-to-right scan of a stuffed region: an ESC must open a two-byte
    escape sequence, whose second byte is thereby escaped; every other
    position holds an unescaped byte, which must not be [reserved]. *)
Fixpoint unescaped_free (reserved : byte -> bool) (l : list byte) : bool :=
  match l with
  | [] => true
  | b :: l' =>
      if Byte.eqb b ESC then
        match l' with
        | [] => false
        | c :: l'' =>
            (Byte.eqb c ESC_END || Byte.eqb c ESC_ESC)
            && unescaped_free reserved l''
        end
      else negb (reserved b) && unescaped_free reserved l'
  end.

(** Every ESC of [f] is immediately followed by escaped-END or
    escaped-ESC. *)
Definition esc_followed (f : list byte) : Prop :=
  forall i,
    nth_error f i = Some ESC ->
    nth_error f (S i) = Some ESC_END \/ nth_error f (S i) = Some ESC_ESC.

(** The framing property of a frame, for a given notion of reserved byte:
    END occurs exactly twice, as the first and as the last byte; every ESC is
    followed by escaped-END or escaped-ESC; no [reserved] value is unescaped
    in the stuffed payload region. *)
Definition framing (reserved : byte -> bool) (f : list byte) : Prop :=
  count_occ Byte.byte_eq_dec f END = 2
  /\ nth_error f 0 = Some END
  /\ nth_error f (List.length f - 1) = Some END
  /\ esc_followed f
  /\ unescaped_free reserved (region f) = true.

(** ** Streams seen through an [io.Reader] *)

(** Successive [Read] calls on [r] deliver the bytes [bs], one per call and
    each with a nil error, and leave the reader in [r']. *)
Fixpoint delivers {R : Type} `{io.Reader R}
    (r : R) (bs : list byte) (r' : R) : Prop :=
  match bs with
  | [] => r' = r
  | b :: bs' =>
      exists r1, io.Read r = (io.mkRead 1 b None, r1) /\ delivers r1 bs' r'
  end.

(** The round trip through an in-memory channel: [ReadPacket] on the bytes
    of the frame of [p] returns [p] as a complete packet. *)
Definition roundtrip (p : list byte) : Prop :=
  ReadPacket_returns (frame p : BytesReader) (mkResult p false None) [].

(** Truncation signalled by a non-nil error, for a reader that has
    delivered a leading END and the stuffed bytes of [q]: whenever the next
    read fails or yields zero bytes, [ReadPacket] returns [q] with
    [isPrefix = true] and a non-nil error. *)
Definition truncation_signalled {R : Type} `{io.Reader R}
    (r : R) (q : list byte) : Prop :=
  forall (r1 r2 : R) (rd : io.ReadResult),
    delivers r (END :: spec_payload q) r1 ->
    io.Read r1 = (rd, r2) -> read_failed rd = true ->
    exists (e : string) (fuel : nat),
      ReadPacket fuel r = Some (mkResult q true (Some e), r2).

(** ** Several calls on one channel *)

(** [WritePacket] called once per packet of [ps], in order, on the same
    writer; the errors of the calls are collected. *)
Fixpoint WritePackets {W : Type} `{io.Writer W}
    (w : W) (ps : list (list byte)) : list error * W :=
  match ps with
  | [] => ([], w)
  | p :: ps' =>
      let '(err, w1) := WritePacket w p in
      let '(errs, w2) := WritePackets w1 ps' in
      (err :: errs, w2)
  end.

(** [k] successive [ReadPacket] calls on the same reader, each run for at
    most [fuel] loop iterations; [None] if one of them has not returned. *)
Fixpoint ReadPackets {R : Type} `{io.Reader R}
    (fuel k : nat) (r : R) : option (list Result * R) :=
  match k with
  | O => Some ([], r)
  | S k' =>
      match ReadPacket fuel r with
      | None => None
      | Some (res, r1) =>
          match ReadPackets fuel k' r1 with
          | None => None
          | Some (rs, r2) => Some (res :: rs, r2)
          end
      end
  end.

(** The result of a call that returns [p] as a complete packet. *)
Definition complete (p : list byte) : Result := mkResult p false None.

Definition nonempty (p : list byte) : bool :=
  match p with [] => false | _ :: _ => true end.

(** The bytes on a line that carries the frames of the packets [snd kp],
    each preceded by [fst kp] stray END bytes. *)
Definition line (kps : list (nat * list byte)) : list byte :=
  flat_map (fun kp => repeat END (fst kp) ++ frame (snd kp)) kps.

(** * Properties *)

(** ** Byte comparison *)

Lemma eqb_neq (a b : byte) : a <> b -> Byte.eqb a b = false.
Proof.
  intros Hne. destruct (Byte.eqb a b) eqn:E; [|reflexivity].
  now apply Byte.byte_dec_bl in E.
Qed.

Lemma eqb_eq (a b : byte) : Byte.eqb a b = true -> a = b.
Proof. apply Byte.byte_dec_bl. Qed.

Lemma constants_values :
  Byte.to_N END = 192%N /\ Byte.to_N ESC = 219%N
  /\ Byte.to_N ESC_END = 220%N /\ Byte.to_N ESC_ESC = 221%N.
Proof. repeat split. Qed.

(** Case analysis on a payload byte the way [switch b] makes it. *)
Lemma stuffed_cases (b : byte) :
  (b = END /\ spec_stuffed b = [ESC; ESC_END])
  \/ (b = ESC /\ spec_stuffed b = [ESC; ESC_ESC])
  \/ (b <> END /\ b <> ESC /\ spec_stuffed b = [b]).
Proof.
  unfold spec_stuffed.
  destruct (Byte.eqb b END) eqn:E1.
  - left. split; [now apply eqb_eq | reflexivity].
  - destruct (Byte.eqb b ESC) eqn:E2.
    + right; left. split; [now apply eqb_eq | reflexivity].
    + right; right. repeat split; now apply Byte.eqb_false.
Qed.

(** ** Assembly never fails and builds the specified frame *)

Lemma put_app (c : byte) (buf : bytes.Buffer) : put c buf = inr (buf ++ [c]).
Proof. reflexivity. Qed.

Lemma stuff_app (b : byte) (buf : bytes.Buffer) :
  stuff b buf = inr (buf ++ spec_stuffed b).
Proof.
  unfold stuff, spec_stuffed.
  destruct (Byte.eqb b END); [|destruct (Byte.eqb b ESC)];
    unfold seq; rewrite ?put_app, <- ?app_assoc; reflexivity.
Qed.

Lemma for_range_stuff_app (p : list byte) (buf : bytes.Buffer) :
  for_range p stuff buf = inr (buf ++ spec_payload p).
Proof.
  revert buf. induction p as [|b p IH]; intros buf; simpl.
  - unfold skip. now rewrite app_nil_r.
  - unfold seq. rewrite stuff_app, IH, <- app_assoc. reflexivity.
Qed.

Lemma assemble_spec (p : list byte) :
  assemble p bytes.empty = inr (spec_frame p).
Proof.
  unfold assemble, seq. rewrite put_app, for_range_stuff_app, put_app.
  reflexivity.
Qed.

Lemma frame_spec (p : list byte) : frame p = spec_frame p.
Proof. unfold frame. now rewrite assemble_spec. Qed.

Lemma WritePacket_unfold {W : Type} `{io.Writer W} (w : W) (p : list byte) :
  WritePacket w p
  = (snd (fst (io.Write w (frame p))), snd (io.Write w (frame p))).
Proof.
  unfold WritePacket, frame. rewrite assemble_spec. unfold bytes.Bytes.
  destruct (io.Write w (spec_frame p)) as [[n err] w']. reflexivity.
Qed.

(** ** Shape of the stuffed payload *)

Lemma payload_cons (b : byte) (p : list byte) :
  spec_payload (b :: p) = spec_stuffed b ++ spec_payload p.
Proof. reflexivity. Qed.

Lemma payload_no_END (p : list byte) : ~ In END (spec_payload p).
Proof.
  unfold spec_payload. rewrite in_flat_map. intros [b [_ Hin]].
  destruct (stuffed_cases b) as [[_ E]|[[_ E]|[Hb [_ E]]]];
    rewrite E in Hin; simpl in Hin; intuition (try discriminate).
Qed.

Lemma payload_esc_followed (p tail : list byte) (i : nat) :
  i < List.length (spec_payload p) ->
  nth_error (spec_payload p ++ tail) i = Some ESC ->
  nth_error (spec_payload p ++ tail) (S i) = Some ESC_END
  \/ nth_error (spec_payload p ++ tail) (S i) = Some ESC_ESC.
Proof.
  revert i. induction p as [|b p IH]; intros i Hlt Hi.
  - simpl in Hlt. lia.
  - rewrite payload_cons in *. rewrite length_app in Hlt.
    destruct (stuffed_cases b) as [[_ E]|[[_ E]|[_ [Hb E]]]];
      rewrite E in *; simpl in Hlt; simpl app in *.
    + destruct i as [|[|i]]; simpl in *;
        [now left | discriminate | apply IH; [lia | assumption]].
    + destruct i as [|[|i]]; simpl in *;
        [now right | discriminate | apply IH; [lia | assumption]].
    + destruct i as [|i]; simpl in *.
      * exfalso. apply Hb. now injection Hi.
      * apply IH; [lia | assumption].
Qed.

Lemma payload_unescaped_free (p : list byte) :
  unescaped_free reserved2 (spec_payload p) = true.
Proof.
  induction p as [|b p IH]; [reflexivity|].
  rewrite payload_cons.
  destruct (stuffed_cases b) as [[_ E]|[[_ E]|[Hb1 [Hb2 E]]]]; rewrite E.
  - exact IH.
  - exact IH.
  - simpl. unfold reserved2.
    rewrite (eqb_neq Hb1), (eqb_neq Hb2). exact IH.
Qed.

Lemma region_spec_frame (p : list byte) :
  region (spec_frame p) = spec_payload p.
Proof. unfold region, spec_frame. simpl. apply removelast_last. Qed.

Lemma spec_frame_length (p : list byte) :
  List.length (spec_frame p) = S (S (List.length (spec_payload p))).
Proof. unfold spec_frame. simpl. rewrite length_app. simpl. lia. Qed.

Lemma spec_frame_esc_followed (p : list byte) : esc_followed (spec_frame p).
Proof.
  intros [|i] Hi; [discriminate|].
  unfold spec_frame in *. simpl in Hi. simpl.
  destruct (Nat.lt_ge_cases i (List.length (spec_payload p))) as [Hlt|Hge].
  - now apply payload_esc_followed.
  - rewrite nth_error_app2 in Hi by assumption.
    destruct (i - List.length (spec_payload p)) as [|[|j]];
      simpl in Hi; discriminate.
Qed.

(** ** Claims about the writer *)

(** C2. For every payload [p], the sequence that [WritePacket] assembles and
    writes is END, then each payload byte replaced by itself, by ESC
    escaped-END when it is END or by ESC escaped-ESC when it is ESC, then
    END: every in-memory sink grows by exactly that sequence. In particular
    [0xC0] is written as C0 DB DC C0, [0xDB] as C0 DB DD C0 and the empty
    payload as C0 C0. *)
Theorem WritePacket_frame_layout (p : list byte) :
  assemble p bytes.empty = inr (END :: flat_map spec_stuffed p ++ [END])
  /\ (forall sink : BytesWriter,
        WritePacket sink p
        = (None, sink ++ END :: flat_map spec_stuffed p ++ [END]))
  /\ WritePacket ([] : BytesWriter) [xc0] = (None, [xc0; xdb; xdc; xc0])
  /\ WritePacket ([] : BytesWriter) [xdb] = (None, [xc0; xdb; xdd; xc0])
  /\ WritePacket ([] : BytesWriter) [] = (None, [xc0; xc0]).
Proof.
  split; [apply assemble_spec|].
  split; [|repeat split].
  intros sink. rewrite WritePacket_unfold, frame_spec. reflexivity.
Qed.

(** C6 (as amended). For every payload [p], in the frame produced by
    [WritePacket] END occurs exactly twice, as the first and as the last
    byte, every ESC is immediately followed by escaped-END or escaped-ESC,
    and neither END nor ESC appears unescaped inside the stuffed payload
    region. *)
Theorem frame_framing_END_ESC (p : list byte) : framing reserved2 (frame p).
Proof.
  rewrite frame_spec. unfold framing.
  split; [|split; [|split; [|split]]].
  - unfold spec_frame. rewrite count_occ_cons_eq by reflexivity.
    rewrite count_occ_app, count_occ_cons_eq by reflexivity. simpl.
    pose proof (payload_no_END p) as Hno.
    rewrite (count_occ_not_In Byte.byte_eq_dec) in Hno. rewrite Hno.
    reflexivity.
  - reflexivity.
  - rewrite spec_frame_length.
    replace (S (S (List.length (spec_payload p))) - 1)
      with (S (List.length (spec_payload p))) by lia.
    unfold spec_frame. simpl. rewrite nth_error_app2 by lia.
    now rewrite Nat.sub_diag.
  - apply spec_frame_esc_followed.
  - rewrite region_spec_frame. apply payload_unescaped_free.
Qed.

(** C6 as stated fails: the payload byte 0xDC, one of the four reserved
    values, is transmitted as itself, with no escape in front of it. *)
Lemma frame_framing_reserved4_fails : ~ framing reserved4 (frame [xdc]).
Proof.
  unfold framing. intros (_ & _ & _ & _ & H). vm_compute in H. discriminate.
Qed.

(** C7. [WritePacket] makes exactly one [Write] call on the underlying
    writer, whatever that writer is, with the fully assembled frame as its
    argument; the error it returns is the error of that call (nil when the
    call succeeds), and a failed call is not repeated. *)
Theorem WritePacket_single_write {W : Type} `{io.Writer W}
    (w : W) (log : list (list byte)) (p : list byte) :
  WritePacket (mkLogged w log) p
  = (snd (fst (io.Write w (frame p))),
     mkLogged (snd (io.Write w (frame p))) (log ++ [frame p]))
  /\ WritePacket w p
     = (snd (fst (io.Write w (frame p))), snd (io.Write w (frame p)))
  /\ frame p = END :: flat_map spec_stuffed p ++ [END]
  /\ (forall e : string,
        WritePacket (mkLogged (Broken e) log) p
        = (Some e, mkLogged (Broken e) (log ++ [frame p]))).
Proof.
  split; [|split; [apply WritePacket_unfold|split; [apply frame_spec|]]].
  - rewrite WritePacket_unfold. unfold io.Write at 1 2, Logged_Writer. simpl.
    destruct (io.Write w (frame p)) as [out w']. reflexivity.
  - intros e. rewrite WritePacket_unfold. reflexivity.
Qed.

(** ** One iteration of the read loop *)

Section ReadLoop.

Context {R : Type} `{io.Reader R}.

Lemma ReadPacket_loop_S (fuel : nat) (r : R) (buf : bytes.Buffer) :
  ReadPacket_loop (S fuel) r buf
  = let '(rd, r1) := io.Read r in
    if read_failed rd then
      Some (mkResult (bytes.Bytes buf) true (io.rd_err rd), r1)
    else if Byte.eqb (io.rd_byte rd) END then
      if (bytes.Len buf >? 0)%Z then
        Some (mkResult (bytes.Bytes buf) false (io.rd_err rd), r1)
      else ReadPacket_loop fuel r1 buf
    else if Byte.eqb (io.rd_byte rd) ESC then
      let '(rd2, r2) := io.Read r1 in
      if read_failed rd2 then
        Some (mkResult (bytes.Bytes buf) true (io.rd_err rd2), r2)
      else
        ReadPacket_loop fuel r2
          (fst (bytes.WriteByte buf (unescape (io.rd_byte rd2))))
    else
      ReadPacket_loop fuel r1 (fst (bytes.WriteByte buf (io.rd_byte rd))).
Proof. reflexivity. Qed.

Lemma read_failed_ok (c : byte) : read_failed (io.mkRead 1 c None) = false.
Proof. reflexivity. Qed.

Lemma read_failed_err (n : Z) (c : byte) (e : string) :
  read_failed (io.mkRead n c (Some e)) = true.
Proof. unfold read_failed. simpl. apply orb_true_r. Qed.

Lemma read_failed_zero (c : byte) (e : error) :
  read_failed (io.mkRead 0 c e) = true.
Proof. reflexivity. Qed.

Lemma Len_pos (buf : bytes.Buffer) :
  (bytes.Len buf >? 0)%Z = negb (Nat.eqb (List.length buf) 0).
Proof.
  unfold bytes.Len. destruct buf; simpl; [reflexivity|].
  apply Z.gtb_lt. lia.
Qed.

Lemma loop_read_failed (fuel : nat) (r r1 : R) (rd : io.ReadResult)
    (buf : bytes.Buffer) :
  io.Read r = (rd, r1) -> read_failed rd = true ->
  ReadPacket_loop (S fuel) r buf = Some (mkResult buf true (io.rd_err rd), r1).
Proof. intros Hr Hf. rewrite ReadPacket_loop_S, Hr, Hf. reflexivity. Qed.

Lemma loop_END_empty (fuel : nat) (r r1 : R) :
  io.Read r = (io.mkRead 1 END None, r1) ->
  ReadPacket_loop (S fuel) r bytes.empty = ReadPacket_loop fuel r1 bytes.empty.
Proof. intros Hr. rewrite ReadPacket_loop_S, Hr. reflexivity. Qed.

Lemma loop_END_complete (fuel : nat) (r r1 : R) (buf : bytes.Buffer) :
  io.Read r = (io.mkRead 1 END None, r1) -> buf <> [] ->
  ReadPacket_loop (S fuel) r buf = Some (mkResult buf false None, r1).
Proof.
  intros Hr Hne. rewrite ReadPacket_loop_S, Hr, read_failed_ok. simpl.
  rewrite Len_pos. destruct buf; [contradiction|reflexivity].
Qed.

Lemma loop_ESC_read_failed (fuel : nat) (r r1 r2 : R) (rd2 : io.ReadResult)
    (buf : bytes.Buffer) :
  io.Read r = (io.mkRead 1 ESC None, r1) ->
  io.Read r1 = (rd2, r2) -> read_failed rd2 = true ->
  ReadPacket_loop (S fuel) r buf
  = Some (mkResult buf true (io.rd_err rd2), r2).
Proof.
  intros Hr Hr1 Hf. rewrite ReadPacket_loop_S, Hr, read_failed_ok. simpl.
  rewrite Hr1, Hf. reflexivity.
Qed.

Lemma loop_ESC (fuel : nat) (r r1 r2 : R) (c : byte) (buf : bytes.Buffer) :
  io.Read r = (io.mkRead 1 ESC None, r1) ->
  io.Read r1 = (io.mkRead 1 c None, r2) ->
  ReadPacket_loop (S fuel) r buf
  = ReadPacket_loop fuel r2 (buf ++ [unescape c]).
Proof.
  intros Hr Hr1. rewrite ReadPacket_loop_S, Hr, read_failed_ok. simpl.
  rewrite Hr1, read_failed_ok. reflexivity.
Qed.

Lemma loop_plain (fuel : nat) (r r1 : R) (b : byte) (buf : bytes.Buffer) :
  io.Read r = (io.mkRead 1 b None, r1) -> b <> END -> b <> ESC ->
  ReadPacket_loop (S fuel) r buf = ReadPacket_loop fuel r1 (buf ++ [b]).
Proof.
  intros Hr H1 H2. rewrite ReadPacket_loop_S, Hr, read_failed_ok. simpl.
  rewrite (eqb_neq H1), (eqb_neq H2). reflexivity.
Qed.

(** ** Whole streams *)

Lemma delivers_app (bs cs : list byte) (r r' : R) :
  delivers r (bs ++ cs) r'
  <-> exists r1, delivers r bs r1 /\ delivers r1 cs r'.
Proof.
  revert r. induction bs as [|b bs IH]; intros r; simpl.
  - split.
    + intros Hd. now exists r.
    + intros [r1 [-> Hd]]. exact Hd.
  - split.
    + intros [r1 [Hr Hd]]. apply IH in Hd as [r2 [Hd1 Hd2]].
      exists r2. split; [exists r1; now split | exact Hd2].
    + intros [r2 [[r1 [Hr Hd1]] Hd2]]. exists r1. split; [exact Hr|].
      apply IH. now exists r2.
Qed.

(** The stuffed form of one payload byte costs one iteration and appends
    that byte. *)
Lemma loop_stuffed (fuel : nat) (r r' : R) (b : byte) (buf : bytes.Buffer) :
  delivers r (spec_stuffed b) r' ->
  ReadPacket_loop (S fuel) r buf = ReadPacket_loop fuel r' (buf ++ [b]).
Proof.
  intros Hd.
  destruct (stuffed_cases b) as [[-> E]|[[-> E]|[H1 [H2 E]]]];
    rewrite E in Hd; simpl in Hd.
  - destruct Hd as (r1 & Hr & r2 & Hr1 & ->).
    now rewrite (loop_ESC _ _ Hr Hr1).
  - destruct Hd as (r1 & Hr & r2 & Hr1 & ->).
    now rewrite (loop_ESC _ _ Hr Hr1).
  - destruct Hd as (r1 & Hr & ->). now apply loop_plain.
Qed.

Lemma loop_payload (q : list byte) (fuel : nat) (r r' : R)
    (buf : bytes.Buffer) :
  delivers r (spec_payload q) r' ->
  ReadPacket_loop (List.length q + fuel) r buf
  = ReadPacket_loop fuel r' (buf ++ q).
Proof.
  revert r buf. induction q as [|b q IH]; intros r buf Hd.
  - simpl in *. subst r'. now rewrite app_nil_r.
  - rewrite payload_cons in Hd. apply delivers_app in Hd as [r1 [Hb Hq]].
    simpl List.length. simpl Nat.add.
    set (fuel' := List.length q + fuel).
    rewrite (loop_stuffed fuel' r r1 b buf Hb), (IH _ _ Hq), <- app_assoc.
    reflexivity.
Qed.

Lemma loop_ENDs (k fuel : nat) (r r' : R) :
  delivers r (repeat END k) r' ->
  ReadPacket_loop (k + fuel) r bytes.empty
  = ReadPacket_loop fuel r' bytes.empty.
Proof.
  revert r. induction k as [|k IH]; intros r Hd; simpl in Hd.
  - now subst r'.
  - destruct Hd as (r1 & Hr & Hd). simpl Nat.add.
    rewrite (loop_END_empty _ Hr). now apply IH.
Qed.

(** More iterations never change a result that was reached. *)
Lemma ReadPacket_loop_mono (fuel fuel' : nat) (r : R) (buf : bytes.Buffer)
    (out : Result * R) :
  ReadPacket_loop fuel r buf = Some out -> fuel <= fuel' ->
  ReadPacket_loop fuel' r buf = Some out.
Proof.
  revert fuel' r buf. induction fuel as [|fuel IH]; intros fuel' r buf Hrun Hle.
  - discriminate.
  - destruct fuel' as [|fuel']; [lia|].
    rewrite ReadPacket_loop_S in *.
    destruct (io.Read r) as [rd r1].
    destruct (read_failed rd); [exact Hrun|].
    destruct (Byte.eqb (io.rd_byte rd) END).
    + destruct (bytes.Len buf >? 0)%Z; [exact Hrun|].
      apply IH; [exact Hrun | lia].
    + destruct (Byte.eqb (io.rd_byte rd) ESC).
      * destruct (io.Read r1) as [rd2 r2].
        destruct (read_failed rd2); [exact Hrun|].
        apply IH; [exact Hrun | lia].
      * apply IH; [exact Hrun | lia].
Qed.

Lemma read_failed_false_nil (rd : io.ReadResult) :
  read_failed rd = false -> io.rd_err rd = None.
Proof.
  unfold read_failed. intros Hf. apply orb_false_iff in Hf as [_ Hf].
  destruct (io.rd_err rd); [discriminate|reflexivity].
Qed.

(** A result with [isPrefix = false] carries a non-empty packet and a nil
    error, whatever buffer the loop was entered with. *)
Lemma loop_complete_nonempty (fuel : nat) (r r' : R) (buf : bytes.Buffer)
    (res : Result) :
  ReadPacket_loop fuel r buf = Some (res, r') ->
  res_isPrefix res = false ->
  res_p res <> [] /\ res_err res = None.
Proof.
  revert r buf. induction fuel as [|fuel IH]; intros r buf Hrun Hpre.
  - discriminate.
  - rewrite ReadPacket_loop_S in Hrun.
    destruct (io.Read r) as [rd r1].
    destruct (read_failed rd) eqn:Hf.
    { injection Hrun as <- _. discriminate. }
    destruct (Byte.eqb (io.rd_byte rd) END).
    + rewrite Len_pos in Hrun. destruct buf as [|b buf]; simpl in Hrun.
      * now apply (IH r1 []).
      * injection Hrun as <- _. simpl.
        split; [discriminate | now apply read_failed_false_nil].
    + destruct (Byte.eqb (io.rd_byte rd) ESC).
      * destruct (io.Read r1) as [rd2 r2].
        destruct (read_failed rd2).
        { injection Hrun as <- _. discriminate. }
        now apply IH in Hrun.
      * now apply IH in Hrun.
Qed.

End ReadLoop.

Lemma BytesReader_delivers (bs rest : list byte) :
  delivers (bs ++ rest : BytesReader) bs rest.
Proof.
  induction bs as [|b bs IH]; simpl; [reflexivity|].
  exists (bs ++ rest). split; [reflexivity | exact IH].
Qed.

(** ** Claims about the reader *)

(** C1 (as amended). For every non-empty byte sequence [p], with END and ESC
    bytes at any position and frequency, [ReadPacket] on the frame produced
    by [WritePacket] returns exactly [p] as a complete packet: over an
    in-memory channel, and over any reader that delivers the bytes of the
    frame, within [length p + 2] iterations of the loop. *)
Theorem roundtrip_nonempty (p : list byte) :
  p <> [] ->
  roundtrip p
  /\ forall (R : Type) (reader : io.Reader R) (r r' : R) (fuel : nat),
       delivers r (frame p) r' ->
       ReadPacket (List.length p + 2 + fuel) r
       = Some (mkResult p false None, r').
Proof.
  intros Hne.
  assert (Hgen : forall (R : Type) (reader : io.Reader R) (r r' : R) fuel,
             delivers r (frame p) r' ->
             ReadPacket (List.length p + 2 + fuel) r
             = Some (mkResult p false None, r')).
  { intros R reader r r' fuel Hd. rewrite frame_spec in Hd.
    unfold spec_frame in Hd. simpl in Hd. destruct Hd as (r1 & Hr & Hd).
    apply delivers_app in Hd as (r2 & Hq & Hend). simpl in Hend.
    destruct Hend as (r3 & Hr2 & ->).
    replace (List.length p + 2 + fuel) with (S (List.length p + S fuel)) by lia.
    unfold ReadPacket.
    erewrite loop_END_empty by exact Hr.
    erewrite loop_payload by exact Hq.
    now apply loop_END_complete. }
  split; [|exact Hgen].
  exists (List.length p + 2 + 0). apply Hgen.
  pose proof (BytesReader_delivers (frame p) []) as Hd.
  now rewrite app_nil_r in Hd.
Qed.

Lemma roundtrip_nonempty_witness :
  [xc0; x41; xdb] <> []
  /\ ReadPacket 5 (frame [xc0; x41; xdb] : BytesReader)
     = Some (mkResult [xc0; x41; xdb] false None, []).
Proof.
  split; [discriminate|].
  apply (proj2 (@roundtrip_nonempty [xc0; x41; xdb]
                  ltac:(discriminate)) BytesReader BytesReader_Reader _ [] 0).
  apply (BytesReader_delivers (frame [xc0; x41; xdb]) []).
Defined.

(** C1 as stated fails on the empty sequence: its frame is END END, both
    bytes are absorbed, and the read ends at end of file with
    [isPrefix = true]. *)
Lemma roundtrip_empty_fails : ~ roundtrip [].
Proof.
  intros [fuel Hrun]. unfold ReadPacket in Hrun.
  apply loop_complete_nonempty in Hrun; [|reflexivity].
  now destruct Hrun as [Hp _].
Qed.

(** C3. [ReadPacket] never returns a zero-length packet with
    [isPrefix = false]; an END read while the buffer is empty is discarded
    and the loop goes on; hence on a stream made of END bytes only it
    returns nothing for as long as ENDs arrive, and when the channel is
    exhausted or fails it returns the empty packet with [isPrefix = true]. *)
Theorem ReadPacket_no_empty_packet {R : Type} `{io.Reader R} :
  (forall (fuel : nat) (r r' : R) (res : Result),
      ReadPacket fuel r = Some (res, r') ->
      res_isPrefix res = false -> res_p res <> [] /\ res_err res = None)
  /\ (forall (fuel : nat) (r r1 : R),
         io.Read r = (io.mkRead 1 END None, r1) ->
         ReadPacket_loop (S fuel) r bytes.empty
         = ReadPacket_loop fuel r1 bytes.empty)
  /\ (forall (k fuel : nat) (r r' : R),
         delivers r (repeat END k) r' ->
         ReadPacket (k + fuel) r = ReadPacket fuel r'
         /\ (forall j, j <= k -> ReadPacket j r = None))
  /\ (forall (k fuel : nat) (r r1 r2 : R) (rd : io.ReadResult),
         delivers r (repeat END k) r1 ->
         io.Read r1 = (rd, r2) -> read_failed rd = true ->
         ReadPacket (k + 1 + fuel) r
         = Some (mkResult [] true (io.rd_err rd), r2))
  /\ (forall fuel : nat, ReadPacket fuel (Noise END) = None).
Proof.
  split; [|split; [|split; [|split]]].
  - intros fuel r r' res Hrun Hpre. unfold ReadPacket in Hrun.
    now apply loop_complete_nonempty in Hrun.
  - intros fuel r r1 Hr. now apply loop_END_empty.
  - intros k fuel r r' Hd. split.
    + unfold ReadPacket. now apply loop_ENDs.
    + intros j Hj. destruct (ReadPacket j r) as [out|] eqn:Hrun; [|reflexivity].
      exfalso. unfold ReadPacket in Hrun.
      apply ReadPacket_loop_mono with (fuel' := k + 0) in Hrun; [|lia].
      erewrite loop_ENDs in Hrun by exact Hd. discriminate.
  - intros k fuel r r1 r2 rd Hd Hr Hf. unfold ReadPacket.
    rewrite <- Nat.add_assoc. erewrite loop_ENDs by exact Hd.
    simpl Nat.add. now apply loop_read_failed.
  - intros fuel. unfold ReadPacket.
    induction fuel as [|fuel IH]; [reflexivity|].
    rewrite ReadPacket_loop_S. simpl. exact IH.
Qed.

Lemma ReadPacket_no_empty_packet_witness :
  delivers ([xc0; xc0; xc0] : BytesReader) (repeat END 3) []
  /\ io.Read ([] : BytesReader) = (io.mkRead 0 x00 io.EOF, [])
  /\ ReadPacket 4 ([xc0; xc0; xc0] : BytesReader)
     = Some (mkResult [] true io.EOF, []).
Proof.
  split; [apply (BytesReader_delivers [xc0; xc0; xc0] [])|].
  split; [reflexivity|].
  apply (proj1 (proj2 (proj2 (proj2
           (@ReadPacket_no_empty_packet BytesReader BytesReader_Reader)))) 3 0
           [xc0; xc0; xc0] [] [] (io.mkRead 0 x00 io.EOF)).
  - apply (BytesReader_delivers [xc0; xc0; xc0] []).
  - reflexivity.
  - reflexivity.
Defined.

(** C4. When the loop reads an ESC and the byte [X] that follows is neither
    escaped-END nor escaped-ESC, [X] itself is appended to the packet being
    accumulated and the loop goes on with the same packet; no error is
    raised, so an END that follows completes the packet with a nil error. *)
Theorem ReadPacket_escape_leniency {R : Type} `{io.Reader R}
    (r r1 r2 : R) (X : byte) (buf : bytes.Buffer) (fuel : nat) :
  X <> ESC_END -> X <> ESC_ESC ->
  io.Read r = (io.mkRead 1 ESC None, r1) ->
  io.Read r1 = (io.mkRead 1 X None, r2) ->
  ReadPacket_loop (S fuel) r buf = ReadPacket_loop fuel r2 (buf ++ [X])
  /\ (forall r3 : R,
        io.Read r2 = (io.mkRead 1 END None, r3) ->
        ReadPacket_loop (S (S fuel)) r buf
        = Some (mkResult (buf ++ [X]) false None, r3)).
Proof.
  intros H1 H2 Hr Hr1.
  assert (Hstep : forall f, ReadPacket_loop (S f) r buf
                            = ReadPacket_loop f r2 (buf ++ [X])).
  { intros f. erewrite loop_ESC; [|exact Hr|exact Hr1]. unfold unescape.
    now rewrite (eqb_neq H1), (eqb_neq H2). }
  split; [apply Hstep|].
  intros r3 Hr2. rewrite Hstep. apply loop_END_complete; [exact Hr2|].
  now destruct buf.
Qed.

Lemma ReadPacket_escape_leniency_witness :
  x41 <> ESC_END /\ x41 <> ESC_ESC
  /\ ReadPacket_loop 2 ([xdb; x41; xc0] : BytesReader) [x01]
     = Some (mkResult [x01; x41] false None, []).
Proof.
  split; [discriminate|]. split; [discriminate|].
  apply (proj2 (@ReadPacket_escape_leniency BytesReader BytesReader_Reader
                  [xdb; x41; xc0] [x41; xc0] [xc0] x41 [x01] 0
                  ltac:(discriminate) ltac:(discriminate)
                  eq_refl eq_refl) []).
  reflexivity.
Defined.

(** C5 (as amended). If a read fails or yields zero bytes in the middle of
    a frame, [ReadPacket] returns exactly the payload accumulated so far
    with [isPrefix = true] and the error of that read: after any leading
    ENDs and the stuffed bytes of a payload [q], with or without a pending
    ESC, it returns [q]; and from any loop state it returns the buffer,
    whether the failing read is the first of the iteration or the one that
    follows an ESC. The error is non-nil when the read returned one, and
    nil only when the read returned zero bytes with a nil error. *)
Theorem ReadPacket_truncated {R : Type} `{io.Reader R}
    (r1 r2 : R) (rd : io.ReadResult) :
  io.Read r1 = (rd, r2) -> read_failed rd = true ->
  (forall (r : R) (k : nat) (q : list byte) (pending_esc : bool) (fuel : nat),
      delivers r
        (repeat END k ++ spec_payload q ++ (if pending_esc then [ESC] else []))
        r1 ->
      ReadPacket (k + List.length q + 1 + fuel) r
      = Some (mkResult q true (io.rd_err rd), r2))
  /\ (forall (buf : bytes.Buffer) (fuel : nat),
         ReadPacket_loop (S fuel) r1 buf
         = Some (mkResult buf true (io.rd_err rd), r2))
  /\ (forall (r0 : R) (buf : bytes.Buffer) (fuel : nat),
         io.Read r0 = (io.mkRead 1 ESC None, r1) ->
         ReadPacket_loop (S fuel) r0 buf
         = Some (mkResult buf true (io.rd_err rd), r2))
  /\ (io.rd_err rd = None -> io.rd_n rd = 0%Z)
  /\ (io.rd_n rd <> 0%Z -> exists e : string, io.rd_err rd = Some e).
Proof.
  intros Hr Hf.
  assert (Hfirst : forall buf fuel,
             ReadPacket_loop (S fuel) r1 buf
             = Some (mkResult buf true (io.rd_err rd), r2)).
  { intros buf fuel. now apply loop_read_failed. }
  assert (Hsecond : forall r0 buf fuel,
             io.Read r0 = (io.mkRead 1 ESC None, r1) ->
             ReadPacket_loop (S fuel) r0 buf
             = Some (mkResult buf true (io.rd_err rd), r2)).
  { intros r0 buf fuel Hr0.
    now apply loop_ESC_read_failed with (r1 := r1). }
  assert (Hnil : io.rd_err rd = None -> io.rd_n rd = 0%Z).
  { intros He. unfold read_failed in Hf. rewrite He in Hf. simpl in Hf.
    rewrite orb_false_r in Hf. now apply Z.eqb_eq. }
  split; [|split; [exact Hfirst|split; [exact Hsecond|split; [exact Hnil|]]]].
  - intros r k q pending_esc fuel Hd.
    apply delivers_app in Hd as (ra & Hends & Hd).
    apply delivers_app in Hd as (rb & Hq & Hesc).
    unfold ReadPacket.
    replace (k + List.length q + 1 + fuel)
      with (k + (List.length q + S fuel)) by lia.
    erewrite loop_ENDs by exact Hends.
    erewrite loop_payload by exact Hq.
    destruct pending_esc; simpl in Hesc.
    + destruct Hesc as (rc & Hrb & ->). now apply Hsecond.
    + subst rb. apply Hfirst.
  - intros Hn. destruct (io.rd_err rd) as [e|]; [now exists e|].
    now specialize (Hnil eq_refl).
Qed.

Lemma ReadPacket_truncated_witness :
  io.Read ([] : BytesReader) = (io.mkRead 0 x00 io.EOF, [])
  /\ read_failed (io.mkRead 0 x00 io.EOF) = true
  /\ ReadPacket 5 ([xc0; x41; xdb; xdc; xdb] : BytesReader)
     = Some (mkResult [x41; xc0] true io.EOF, []).
Proof.
  split; [reflexivity|]. split; [reflexivity|].
  apply (proj1 (@ReadPacket_truncated BytesReader BytesReader_Reader [] []
                  (io.mkRead 0 x00 io.EOF) eq_refl eq_refl)
           [xc0; x41; xdb; xdc; xdb] 1 [x41; xc0] true 1).
  apply (BytesReader_delivers [xc0; x41; xdb; xdc; xdb] []).
Defined.

(** C5 as stated fails: when the channel is exhausted in the middle of a
    frame by a read of zero bytes with a nil error, the partial payload is
    returned with [isPrefix = true] and a nil error. *)
Lemma truncation_nil_error_fails :
  ~ truncation_signalled
      ([io.mkRead 1 xc0 None; io.mkRead 1 x41 None; io.mkRead 1 x42 None;
        io.mkRead 0 x00 None] : ScriptReader)
      [x41; x42].
Proof.
  intros Hclaim.
  destruct (Hclaim [io.mkRead 0 x00 None] [] (io.mkRead 0 x00 None))
    as (e & fuel & Hrun).
  - exists [io.mkRead 1 x41 None; io.mkRead 1 x42 None; io.mkRead 0 x00 None].
    split; [reflexivity|].
    exists [io.mkRead 1 x42 None; io.mkRead 0 x00 None].
    split; [reflexivity|].
    exists [io.mkRead 0 x00 None]. split; reflexivity.
  - reflexivity.
  - reflexivity.
  - unfold ReadPacket in Hrun.
    apply ReadPacket_loop_mono with (fuel' := fuel + 4) in Hrun; [|lia].
    assert (H4 : ReadPacket_loop 4
                   ([io.mkRead 1 xc0 None; io.mkRead 1 x41 None;
                     io.mkRead 1 x42 None; io.mkRead 0 x00 None]
                    : ScriptReader) bytes.empty
                 = Some (mkResult [x41; x42] true None, []))
      by reflexivity.
    apply ReadPacket_loop_mono with (fuel' := fuel + 4) in H4; [|lia].
    rewrite H4 in Hrun. discriminate.
Qed.

(** C8. If a read returns one byte together with a non-nil error,
    [ReadPacket] drops that byte: it returns the payload accumulated before
    the call with [isPrefix = true] and the error, for the first read of an
    iteration and for the read that follows an ESC alike, and the reader is
    left after the dropped byte; the same byte delivered with a nil error is
    appended. *)
Theorem ReadPacket_byte_with_error_dropped {R : Type} `{io.Reader R}
    (r1 r2 : R) (b : byte) (e : string) :
  io.Read r1 = (io.mkRead 1 b (Some e), r2) ->
  (forall (buf : bytes.Buffer) (fuel : nat),
      ReadPacket_loop (S fuel) r1 buf
      = Some (mkResult buf true (Some e), r2))
  /\ (forall (r0 : R) (buf : bytes.Buffer) (fuel : nat),
         io.Read r0 = (io.mkRead 1 ESC None, r1) ->
         ReadPacket_loop (S fuel) r0 buf
         = Some (mkResult buf true (Some e), r2))
  /\ (forall (r : R) (q : list byte) (fuel : nat),
         delivers r (spec_payload q) r1 ->
         ReadPacket (List.length q + 1 + fuel) r
         = Some (mkResult q true (Some e), r2))
  /\ (forall (r r' : R) (buf : bytes.Buffer) (fuel : nat),
         io.Read r = (io.mkRead 1 b None, r') -> b <> END -> b <> ESC ->
         ReadPacket_loop (S fuel) r buf
         = ReadPacket_loop fuel r' (buf ++ [b])).
Proof.
  intros Hr.
  assert (Hfirst : forall buf fuel,
             ReadPacket_loop (S fuel) r1 buf
             = Some (mkResult buf true (Some e), r2)).
  { intros buf fuel.
    now rewrite (loop_read_failed fuel r1 buf Hr (read_failed_err 1 b e)). }
  split; [exact Hfirst|split; [|split]].
  - intros r0 buf fuel Hr0.
    now rewrite (loop_ESC_read_failed fuel r0 buf Hr0 Hr
                   (read_failed_err 1 b e)).
  - intros r q fuel Hq. unfold ReadPacket.
    rewrite <- Nat.add_assoc. erewrite loop_payload by exact Hq.
    apply Hfirst.
  - intros r r' buf fuel Hrd H1 H2. now apply loop_plain.
Qed.

Lemma ReadPacket_byte_with_error_dropped_witness :
  io.Read ([io.mkRead 1 x42 (Some "reset"%string); io.mkRead 1 x43 None]
           : ScriptReader)
  = (io.mkRead 1 x42 (Some "reset"%string), [io.mkRead 1 x43 None])
  /\ ReadPacket_loop 1
       ([io.mkRead 1 x42 (Some "reset"%string); io.mkRead 1 x43 None]
        : ScriptReader) [x41]
     = Some (mkResult [x41] true (Some "reset"%string),
             [io.mkRead 1 x43 None]).
Proof.
  split; [reflexivity|].
  apply (proj1 (@ReadPacket_byte_with_error_dropped
                  ScriptReader ScriptReader_Reader
                  [io.mkRead 1 x42 (Some "reset"%string); io.mkRead 1 x43 None]
                  [io.mkRead 1 x43 None] x42 "reset"%string eq_refl)
           [x41] 0).
Defined.

(** C9. Whenever a read returns zero bytes with a nil error, [ReadPacket]
    stops and returns the bytes accumulated so far with [isPrefix = true]
    and a nil error, so [isPrefix = true] does not imply a non-nil error;
    a reader whose first read is such a read shows it. *)
Theorem ReadPacket_prefix_with_nil_error {R : Type} `{io.Reader R}
    (r1 r2 : R) (c : byte) :
  io.Read r1 = (io.mkRead 0 c None, r2) ->
  (forall (buf : bytes.Buffer) (fuel : nat),
      ReadPacket_loop (S fuel) r1 buf = Some (mkResult buf true None, r2))
  /\ (forall (r0 : R) (buf : bytes.Buffer) (fuel : nat),
         io.Read r0 = (io.mkRead 1 ESC None, r1) ->
         ReadPacket_loop (S fuel) r0 buf = Some (mkResult buf true None, r2))
  /\ (forall (r : R) (q : list byte) (fuel : nat),
         delivers r (spec_payload q) r1 ->
         ReadPacket (List.length q + 1 + fuel) r
         = Some (mkResult q true None, r2))
  /\ (exists (s s' : ScriptReader) (res : Result),
         ReadPacket 1 s = Some (res, s')
         /\ res_isPrefix res = true /\ res_err res = None).
Proof.
  intros Hr.
  assert (Hfirst : forall buf fuel,
             ReadPacket_loop (S fuel) r1 buf
             = Some (mkResult buf true None, r2)).
  { intros buf fuel.
    now rewrite (loop_read_failed fuel r1 buf Hr (read_failed_zero c None)). }
  split; [exact Hfirst|split; [|split]].
  - intros r0 buf fuel Hr0.
    now rewrite (loop_ESC_read_failed fuel r0 buf Hr0 Hr
                   (read_failed_zero c None)).
  - intros r q fuel Hq. unfold ReadPacket.
    rewrite <- Nat.add_assoc. erewrite loop_payload by exact Hq.
    apply Hfirst.
  - exists [io.mkRead 0 x00 None], [], (mkResult [] true None).
    repeat split.
Qed.

Lemma ReadPacket_prefix_with_nil_error_witness :
  io.Read ([io.mkRead 0 x00 None] : ScriptReader)
  = (io.mkRead 0 x00 None, [])
  /\ ReadPacket_loop 1 ([io.mkRead 0 x00 None] : ScriptReader) [x41; x42]
     = Some (mkResult [x41; x42] true None, []).
Proof.
  split; [reflexivity|].
  apply (proj1 (@ReadPacket_prefix_with_nil_error
                  ScriptReader ScriptReader_Reader
                  [io.mkRead 0 x00 None] [] x00 eq_refl) [x41; x42] 0).
Defined.

(** C10. After an ESC the next byte has no delimiter or escape role: an END
    that follows an ESC is appended as a literal END and does not end the
    packet, an ESC that follows an ESC is appended as a literal ESC and
    does not open an escape sequence, and the loop goes on with a fresh
    read. *)
Theorem ReadPacket_escaped_reserved_literal {R : Type} `{io.Reader R}
    (r r1 r2 : R) (c : byte) (buf : bytes.Buffer) (fuel : nat) :
  c = END \/ c = ESC ->
  io.Read r = (io.mkRead 1 ESC None, r1) ->
  io.Read r1 = (io.mkRead 1 c None, r2) ->
  ReadPacket_loop (S fuel) r buf = ReadPacket_loop fuel r2 (buf ++ [c])
  /\ ReadPacket 3 ([ESC; END; x41; END] : BytesReader)
     = Some (mkResult [END; x41] false None, [])
  /\ ReadPacket 3 ([ESC; ESC; ESC_END; END] : BytesReader)
     = Some (mkResult [ESC; ESC_END] false None, []).
Proof.
  intros Hc Hr Hr1. split; [|split; reflexivity].
  erewrite loop_ESC; [|exact Hr|exact Hr1].
  destruct Hc as [-> | ->]; reflexivity.
Qed.

Lemma ReadPacket_escaped_reserved_literal_witness :
  (END = END \/ END = ESC)
  /\ ReadPacket_loop 2 ([xdb; xc0; xc0] : BytesReader) []
     = ReadPacket_loop 1 ([xc0] : BytesReader) [xc0].
Proof.
  split; [now left|].
  apply (proj1 (@ReadPacket_escaped_reserved_literal
                  BytesReader BytesReader_Reader
                  [xdb; xc0; xc0] [xc0; xc0] [xc0] END [] 1
                  (or_introl eq_refl) eq_refl eq_refl)).
Defined.

(** * Further properties of the codec *)

(** ** Size and shape of frames *)

Lemma payload_length (p : list byte) :
  List.length (spec_payload p)
  = List.length p + List.length (filter reserved2 p).
Proof.
  induction p as [|b p IH]; [reflexivity|].
  rewrite payload_cons, length_app, IH. simpl filter. unfold reserved2 at 2.
  destruct (stuffed_cases b) as [[-> E]|[[-> E]|[H1 [H2 E]]]]; rewrite E.
  - simpl. lia.
  - simpl. lia.
  - rewrite (eqb_neq H1), (eqb_neq H2). simpl. lia.
Qed.

Lemma filter_length_le {A : Type} (f : A -> bool) (l : list A) :
  List.length (filter f l) <= List.length l.
Proof.
  induction l as [|a l IH]; simpl; [lia|]. destruct (f a); simpl; lia.
Qed.

Lemma filter_nil_forallb {A : Type} (f : A -> bool) (l : list A) :
  filter f l = [] <-> forallb (fun a => negb (f a)) l = true.
Proof.
  induction l as [|a l IH]; simpl; [tauto|].
  destruct (f a); simpl; [split; discriminate | exact IH].
Qed.

Lemma stuffed_app_inj (b c : byte) (P Q : list byte) :
  spec_stuffed b ++ P = spec_stuffed c ++ Q -> b = c /\ P = Q.
Proof.
  intros Heq.
  destruct (stuffed_cases b) as [[Hb E]|[[Hb E]|[Hb1 [Hb2 E]]]];
    destruct (stuffed_cases c) as [[Hc F]|[[Hc F]|[Hc1 [Hc2 F]]]];
    rewrite E, F in Heq; simpl in Heq;
    unfold END, ESC, ESC_END, ESC_ESC in *;
    inversion Heq; subst; try (split; reflexivity); congruence.
Qed.

Lemma payload_inj (p q : list byte) :
  spec_payload p = spec_payload q -> p = q.
Proof.
  revert q. induction p as [|b p IH]; intros [|c q] Heq.
  - reflexivity.
  - rewrite payload_cons in Heq.
    destruct (stuffed_cases c) as [[_ E]|[[_ E]|[_ [_ E]]]];
      rewrite E in Heq; discriminate.
  - rewrite payload_cons in Heq.
    destruct (stuffed_cases b) as [[_ E]|[[_ E]|[_ [_ E]]]];
      rewrite E in Heq; discriminate.
  - rewrite !payload_cons in Heq.
    apply stuffed_app_inj in Heq as [-> Heq]. f_equal. now apply IH.
Qed.

Lemma split_at_first {A : Type} (a : A) (l1 l2 s t : list A) :
  ~ In a l1 -> ~ In a l2 -> l1 ++ a :: s = l2 ++ a :: t ->
  l1 = l2 /\ s = t.
Proof.
  revert l2. induction l1 as [|x l1 IH]; intros [|y l2] H1 H2 Heq;
    simpl in *.
  - injection Heq as ->. now split.
  - injection Heq as <- _. exfalso. apply H2. now left.
  - injection Heq as -> _. exfalso. apply H1. now left.
  - injection Heq as -> Heq. apply IH in Heq as [-> ->]; [now split| |];
      intros Hin; [apply H1 | apply H2]; now right.
Qed.

(** X1. A frame is two bytes longer than the stuffed payload, which has one
    extra byte per END or ESC of the packet: between [length p + 2] and
    [2 * length p + 2] bytes. *)
Theorem frame_length (p : list byte) :
  List.length (frame p)
  = List.length p + List.length (filter reserved2 p) + 2
  /\ List.length p + 2 <= List.length (frame p) <= 2 * List.length p + 2.
Proof.
  rewrite frame_spec, spec_frame_length, payload_length.
  pose proof (filter_length_le reserved2 p). lia.
Qed.

(** X2. A packet is framed verbatim, END p END, exactly when it contains
    neither END nor ESC. *)
Theorem frame_verbatim_iff (p : list byte) :
  forallb (fun b => negb (reserved2 b)) p = true
  <-> frame p = END :: p ++ [END].
Proof.
  rewrite frame_spec. unfold spec_frame. split.
  - intros Hall. do 2 f_equal.
    induction p as [|b p IH]; [reflexivity|].
    simpl in Hall. apply andb_true_iff in Hall as [Hb Hall].
    rewrite payload_cons, (IH Hall).
    destruct (stuffed_cases b) as [[-> _]|[[-> _]|[_ [_ ->]]]];
      [discriminate | discriminate | reflexivity].
  - intros Heq. injection Heq as Heq. apply app_inv_tail in Heq.
    apply filter_nil_forallb. apply length_zero_iff_nil.
    pose proof (payload_length p) as Hlen. rewrite Heq in Hlen. lia.
Qed.

(** X3. Frames are self-delimiting: if two byte streams that each start
    with a frame are equal, the packets are equal and so are the bytes that
    follow the frames; in particular [frame] is injective. *)
Theorem frame_self_delimiting (p q s t : list byte) :
  frame p ++ s = frame q ++ t -> p = q /\ s = t.
Proof.
  rewrite !frame_spec. unfold spec_frame. simpl.
  rewrite <- !app_assoc. simpl. intros Heq. injection Heq as Heq.
  apply split_at_first in Heq as [Hpq Hst];
    [| apply payload_no_END | apply payload_no_END].
  split; [now apply payload_inj | exact Hst].
Qed.

Lemma frame_self_delimiting_witness :
  frame [xc0; x41] ++ [x07] = frame [xc0; x41] ++ [x07]
  /\ [xc0; x41] = [xc0; x41] /\ [x07] = [x07].
Proof.
  split; [reflexivity|].
  apply (@frame_self_delimiting [xc0; x41] [xc0; x41] [x07] [x07]).
  reflexivity.
Defined.

(** ** Reading frames from any loop state *)

Section ReadFrames.

Context {R : Type} `{io.Reader R}.

(** A frame met with an empty buffer is read as its packet. *)
Lemma loop_frame (p : list byte) (fuel : nat) (r r' : R) :
  p <> [] -> delivers r (frame p) r' ->
  ReadPacket_loop (List.length p + 2 + fuel) r bytes.empty
  = Some (complete p, r').
Proof.
  intros Hne Hd. rewrite frame_spec in Hd. unfold spec_frame in Hd.
  simpl in Hd. destruct Hd as (r1 & Hr & Hd).
  apply delivers_app in Hd as (r2 & Hq & Hend). simpl in Hend.
  destruct Hend as (r3 & Hr2 & ->).
  replace (List.length p + 2 + fuel) with (S (List.length p + S fuel)) by lia.
  erewrite loop_END_empty by exact Hr.
  erewrite loop_payload by exact Hq.
  now apply loop_END_complete.
Qed.

(** The same after [k] stray ENDs. *)
Lemma loop_ENDs_frame (k : nat) (p : list byte) (fuel : nat) (r r' : R) :
  p <> [] -> delivers r (repeat END k ++ frame p) r' ->
  ReadPacket_loop (k + List.length p + 2 + fuel) r bytes.empty
  = Some (complete p, r').
Proof.
  intros Hne Hd. apply delivers_app in Hd as (r1 & Hk & Hf).
  replace (k + List.length p + 2 + fuel)
    with (k + (List.length p + 2 + fuel)) by lia.
  erewrite loop_ENDs by exact Hk. now apply loop_frame.
Qed.

(** X4. What a returning call tells about the last read: with
    [isPrefix = true] the last read failed or gave zero bytes and its error
    is the one returned; with [isPrefix = false] the last read delivered an
    END with a nil error, and the packet is not empty. *)
Theorem ReadPacket_return_cause (fuel : nat) (r r' : R) (buf : bytes.Buffer)
    (res : Result) :
  ReadPacket_loop fuel r buf = Some (res, r') ->
  exists (r0 : R) (rd : io.ReadResult),
    io.Read r0 = (rd, r')
    /\ (res_isPrefix res = true ->
        read_failed rd = true /\ res_err res = io.rd_err rd)
    /\ (res_isPrefix res = false ->
        rd = io.mkRead (io.rd_n rd) END None
        /\ io.rd_n rd <> 0%Z /\ res_err res = None /\ res_p res <> []).
Proof.
  revert r buf. induction fuel as [|fuel IH]; intros r buf Hrun.
  - discriminate.
  - rewrite ReadPacket_loop_S in Hrun.
    destruct (io.Read r) as [rd r1] eqn:Hr.
    destruct (read_failed rd) eqn:Hf.
    { injection Hrun as <- <-. exists r, rd. simpl.
      split; [exact Hr|]. split; [now split | discriminate]. }
    destruct (Byte.eqb (io.rd_byte rd) END) eqn:Hend.
    + rewrite Len_pos in Hrun. destruct buf as [|b buf]; simpl in Hrun.
      * now apply IH in Hrun.
      * injection Hrun as <- <-. exists r, rd. simpl.
        split; [exact Hr|]. split; [discriminate|]. intros _.
        pose proof (read_failed_false_nil _ Hf) as Hnil.
        apply eqb_eq in Hend. destruct rd as [n c e]. simpl in *. subst.
        repeat split; try discriminate.
        unfold read_failed in Hf. simpl in Hf.
        apply orb_false_iff in Hf as [Hn _]. now apply Z.eqb_neq in Hn.
    + destruct (Byte.eqb (io.rd_byte rd) ESC).
      * destruct (io.Read r1) as [rd2 r2] eqn:Hr1.
        destruct (read_failed rd2) eqn:Hf2.
        { injection Hrun as <- <-. exists r1, rd2. simpl.
          split; [exact Hr1|]. split; [now split | discriminate]. }
        now apply IH in Hrun.
      * now apply IH in Hrun.
Qed.

(** X5. The loop only appends: the returned bytes start with the buffer the
    loop was entered with, and a call that returns within [fuel] iterations
    has appended fewer than [fuel] bytes. *)
Theorem ReadPacket_loop_extends_buffer (fuel : nat) (r r' : R)
    (buf : bytes.Buffer) (res : Result) :
  ReadPacket_loop fuel r buf = Some (res, r') ->
  exists tail : list byte,
    res_p res = buf ++ tail /\ List.length tail < fuel.
Proof.
  revert r buf. induction fuel as [|fuel IH]; intros r buf Hrun.
  - discriminate.
  - rewrite ReadPacket_loop_S in Hrun.
    assert (Hstop : forall b e r1,
               Some (mkResult (bytes.Bytes buf) b e, r1) = Some (res, r') ->
               exists tail, res_p res = buf ++ tail
                            /\ List.length tail < S fuel).
    { intros b e r1 Heq. injection Heq as <- _. exists []. simpl.
      rewrite app_nil_r. split; [reflexivity | lia]. }
    assert (Hgo : forall c r1,
               ReadPacket_loop fuel r1 (fst (bytes.WriteByte buf c))
               = Some (res, r') ->
               exists tail, res_p res = buf ++ tail
                            /\ List.length tail < S fuel).
    { intros c r1 Hrec. apply IH in Hrec as (tail & Hp & Hlen).
      exists (c :: tail). simpl in Hp. rewrite <- app_assoc in Hp.
      split; [exact Hp | simpl; lia]. }
    destruct (io.Read r) as [rd r1].
    destruct (read_failed rd); [now apply Hstop in Hrun|].
    destruct (Byte.eqb (io.rd_byte rd) END).
    + destruct (bytes.Len buf >? 0)%Z; [now apply Hstop in Hrun|].
      apply IH in Hrun as (tail & Hp & Hlen). exists tail.
      split; [exact Hp | lia].
    + destruct (Byte.eqb (io.rd_byte rd) ESC).
      * destruct (io.Read r1) as [rd2 r2].
        destruct (read_failed rd2); [now apply Hstop in Hrun|].
        now apply Hgo in Hrun.
      * now apply Hgo in Hrun.
Qed.

End ReadFrames.

Lemma ReadPacket_return_cause_witness :
  ReadPacket_loop 3 ([x41; xc0; x42] : BytesReader) []
  = Some (complete [x41], [x42])
  /\ exists (r0 : BytesReader) (rd : io.ReadResult),
       io.Read r0 = (rd, [x42]) /\ rd = io.mkRead (io.rd_n rd) END None.
Proof.
  split; [reflexivity|].
  destruct (@ReadPacket_return_cause BytesReader BytesReader_Reader 3
              [x41; xc0; x42] [x42] [] (complete [x41]) eq_refl)
    as (r0 & rd & Hr & _ & Hend).
  exists r0, rd. split; [exact Hr | now apply Hend].
Defined.

Lemma ReadPacket_loop_extends_buffer_witness :
  ReadPacket_loop 3 ([x41; xc0; x42] : BytesReader) [x40]
  = Some (complete [x40; x41], [x42])
  /\ exists tail : list byte,
       [x40; x41] = [x40] ++ tail /\ List.length tail < 3.
Proof.
  split; [reflexivity|].
  apply (@ReadPacket_loop_extends_buffer BytesReader BytesReader_Reader 3
           [x41; xc0; x42] [x42] [x40] (complete [x40; x41]) eq_refl).
Defined.

(** ** Finite sources *)

Lemma script_loop_returns (n : nat) :
  forall (s : ScriptReader) (buf : bytes.Buffer),
    List.length s < n ->
    exists (res : Result) (used s' : ScriptReader),
      ReadPacket_loop n s buf = Some (res, s') /\ s = used ++ s'.
Proof.
  induction n as [|n IH]; intros s buf Hlen; [lia|].
  rewrite ReadPacket_loop_S.
  destruct s as [|rd s1].
  { exists (mkResult buf true io.EOF), [], []. now split. }
  change (io.Read (rd :: s1 : ScriptReader)) with (rd, s1).
  cbv beta iota.
  simpl in Hlen.
  assert (Hrec : forall (c : list io.ReadResult) s2 buf2,
             rd :: s1 = c ++ s2 -> List.length s2 < n ->
             exists res used s',
               ReadPacket_loop n s2 buf2 = Some (res, s')
               /\ rd :: s1 = used ++ s').
  { intros c s2 buf2 Hc Hl.
    destruct (IH s2 buf2 Hl) as (res & u & s' & Hrun & ->).
    exists res, (c ++ u), s'. split; [exact Hrun|].
    now rewrite <- app_assoc. }
  destruct (read_failed rd).
  { exists (mkResult buf true (io.rd_err rd)), [rd], s1. now split. }
  destruct (Byte.eqb (io.rd_byte rd) END).
  - destruct (bytes.Len buf >? 0)%Z.
    + exists (mkResult buf false (io.rd_err rd)), [rd], s1. now split.
    + apply (Hrec [rd]); [reflexivity | lia].
  - destruct (Byte.eqb (io.rd_byte rd) ESC).
    + destruct s1 as [|rd2 s2].
      { exists (mkResult buf true io.EOF), [rd], []. now split. }
      change (io.Read (rd2 :: s2 : ScriptReader)) with (rd2, s2).
      cbv beta iota.
      simpl in Hlen. destruct (read_failed rd2).
      * exists (mkResult buf true (io.rd_err rd2)), [rd; rd2], s2.
        now split.
      * apply (Hrec [rd; rd2]); [reflexivity | lia].
    + apply (Hrec [rd]); [reflexivity | lia].
Qed.

Lemma bytes_loop_returns (n : nat) :
  forall (s : BytesReader) (buf : bytes.Buffer),
    List.length s < n ->
    exists (res : Result) (used s' : BytesReader),
      ReadPacket_loop n s buf = Some (res, s') /\ s = used ++ s'
      /\ (res_isPrefix res = true -> res_err res = io.EOF /\ s' = []).
Proof.
  induction n as [|n IH]; intros s buf Hlen; [lia|].
  rewrite ReadPacket_loop_S.
  destruct s as [|b s1].
  { exists (mkResult buf true io.EOF), [], []. now repeat split. }
  change (io.Read (b :: s1 : BytesReader)) with (io.mkRead 1 b None, s1).
  cbv beta iota.
  rewrite read_failed_ok. cbn [io.rd_byte io.rd_err].
  simpl in Hlen.
  assert (Hrec : forall (c : list byte) s2 buf2,
             b :: s1 = c ++ s2 -> List.length s2 < n ->
             exists res used s',
               ReadPacket_loop n s2 buf2 = Some (res, s')
               /\ b :: s1 = used ++ s'
               /\ (res_isPrefix res = true ->
                   res_err res = io.EOF /\ s' = [])).
  { intros c s2 buf2 Hc Hl.
    destruct (IH s2 buf2 Hl) as (res & u & s' & Hrun & -> & Hpre).
    exists res, (c ++ u), s'. split; [exact Hrun|].
    split; [now rewrite <- app_assoc | exact Hpre]. }
  destruct (Byte.eqb b END).
  - destruct (bytes.Len buf >? 0)%Z.
    + exists (mkResult buf false None), [b], s1.
      repeat split; discriminate.
    + apply (Hrec [b]); [reflexivity | lia].
  - destruct (Byte.eqb b ESC).
    + destruct s1 as [|b2 s2].
      { exists (mkResult buf true io.EOF), [b], []. now repeat split. }
      change (io.Read (b2 :: s2 : BytesReader))
        with (io.mkRead 1 b2 None, s2).
      cbv beta iota.
      rewrite read_failed_ok. cbn [io.rd_byte io.rd_err]. simpl in Hlen.
      apply (Hrec [b; b2]); [reflexivity | lia].
    + apply (Hrec [b]); [reflexivity | lia].
Qed.

(** X6. On a source that comes to an end, [ReadPacket] always returns, from
    any loop state, within one iteration more than there are reads left,
    and what it leaves unread is a suffix of the source: for a script of
    read outcomes followed by end of file, and for an in-memory byte
    source, where moreover a result with [isPrefix = true] means that the
    source is used up and carries [io.EOF]. *)
Theorem ReadPacket_returns_on_finite_source (buf : bytes.Buffer)
    (extra : nat) :
  (forall s : ScriptReader,
      exists (res : Result) (used s' : ScriptReader),
        ReadPacket_loop (S (List.length s) + extra) s buf = Some (res, s')
        /\ s = used ++ s')
  /\ (forall s : BytesReader,
         exists (res : Result) (used s' : BytesReader),
           ReadPacket_loop (S (List.length s) + extra) s buf = Some (res, s')
           /\ s = used ++ s'
           /\ (res_isPrefix res = true -> res_err res = io.EOF /\ s' = [])).
Proof.
  split; intros s.
  - apply script_loop_returns. lia.
  - apply bytes_loop_returns. lia.
Qed.

(** ** Several packets over one channel *)

Lemma frame_length_ge (p : list byte) :
  List.length p + 2 <= List.length (frame p).
Proof. rewrite frame_spec, spec_frame_length, payload_length. lia. Qed.

Lemma WritePackets_bytes (ps : list (list byte)) :
  forall sink : BytesWriter,
    WritePackets sink ps
    = (map (fun _ => None) ps, sink ++ List.concat (map frame ps)).
Proof.
  induction ps as [|p ps IH]; intros sink; simpl.
  - now rewrite app_nil_r.
  - rewrite WritePacket_unfold.
    change (io.Write sink (frame p))
      with ((Z.of_nat (List.length (frame p)), @None string),
            sink ++ frame p).
    cbv beta iota. simpl fst. simpl snd. rewrite IH.
    now rewrite <- app_assoc.
Qed.

Lemma ReadPackets_S {R : Type} `{io.Reader R} (fuel k : nat) (r : R) :
  ReadPackets fuel (S k) r
  = match ReadPacket fuel r with
    | None => None
    | Some (res, r1) =>
        match ReadPackets fuel k r1 with
        | None => None
        | Some (rs, r2) => Some (res :: rs, r2)
        end
    end.
Proof. reflexivity. Qed.

Lemma ENDs_then_EOF (k extra : nat) :
  ReadPacket (k + 1 + extra) (repeat END k : BytesReader)
  = Some (mkResult [] true io.EOF, []).
Proof.
  unfold ReadPacket. rewrite <- Nat.add_assoc.
  pose proof (BytesReader_delivers (repeat END k) []) as Hd.
  rewrite app_nil_r in Hd. erewrite loop_ENDs by exact Hd. reflexivity.
Qed.

Lemma ReadPackets_stream (ps : list (list byte)) (fuel : nat) :
  forall k : nat,
    k + List.length (List.concat (map frame ps)) < fuel ->
    ReadPackets fuel (S (List.length (filter nonempty ps)))
      (repeat END k ++ List.concat (map frame ps) : BytesReader)
    = Some (map complete (filter nonempty ps) ++ [mkResult [] true io.EOF],
            []).
Proof.
  induction ps as [|p ps IH]; intros k Hfuel.
  - simpl in *. rewrite app_nil_r.
    replace fuel with (k + 1 + (fuel - k - 1)) by lia.
    now rewrite ENDs_then_EOF.
  - simpl List.concat in *. rewrite length_app in Hfuel.
    destruct p as [|b p].
    + change (frame []) with (repeat END 2) in *. simpl List.length in Hfuel.
      rewrite app_assoc, <- repeat_app. simpl filter.
      apply IH. lia.
    + pose proof (frame_length_ge (b :: p)) as Hlen.
      change (filter nonempty ((b :: p) :: ps))
        with ((b :: p) :: filter nonempty ps).
      set (n := List.length (filter nonempty ps)).
      change (List.length ((b :: p) :: filter nonempty ps)) with (S n).
      rewrite ReadPackets_S. unfold ReadPacket at 1.
      replace fuel
        with (k + List.length (b :: p) + 2
              + (fuel - (k + List.length (b :: p) + 2))) at 1 by lia.
      erewrite loop_ENDs_frame;
        [| discriminate
         | rewrite app_assoc; apply BytesReader_delivers ].
      specialize (IH 0). simpl repeat in IH. simpl app in IH.
      unfold n. rewrite IH by lia. reflexivity.
Qed.

(** X7. Frames that follow each other on a line, each after any number of
    stray END bytes, are read by as many successive calls as complete
    packets, in order, and the reader is left right after the last frame:
    for every reader, non-empty packets, and calls allowed as many
    iterations as the longest stretch needs. *)
Theorem ReadPackets_line {R : Type} `{io.Reader R}
    (kps : list (nat * list byte)) (fuel : nat) (r r' : R) :
  (forall kp, In kp kps ->
              snd kp <> [] /\ fst kp + List.length (snd kp) + 2 <= fuel) ->
  delivers r (line kps) r' ->
  ReadPackets fuel (List.length kps) r
  = Some (map (fun kp => complete (snd kp)) kps, r').
Proof.
  revert r. induction kps as [|[k p] kps IH]; intros r Hall Hd.
  - simpl in *. now subst r'.
  - unfold line in Hd. simpl flat_map in Hd.
    apply delivers_app in Hd as (r1 & Hkp & Hrest).
    destruct (Hall (k, p) (or_introl eq_refl)) as [Hne Hfuel].
    simpl in Hne, Hfuel. simpl. unfold ReadPacket.
    replace fuel
      with (k + List.length p + 2 + (fuel - (k + List.length p + 2)))
      at 1 by lia.
    erewrite loop_ENDs_frame; [|exact Hne|exact Hkp].
    rewrite (IH r1); [reflexivity | | exact Hrest].
    intros kp Hin. apply Hall. now right.
Qed.

Lemma ReadPackets_line_witness :
  delivers ([xc0; xc0; x41; xc0; xc0; xc0; xdb; xdc; xc0; x07] : BytesReader)
    (line [(1, [x41]); (1, [xc0])]) [x07]
  /\ ReadPackets 4 2
       ([xc0; xc0; x41; xc0; xc0; xc0; xdb; xdc; xc0; x07] : BytesReader)
     = Some ([complete [x41]; complete [xc0]], [x07]).
Proof.
  split; [apply (BytesReader_delivers (line [(1, [x41]); (1, [xc0])]) [x07])|].
  apply (@ReadPackets_line BytesReader BytesReader_Reader
           [(1, [x41]); (1, [xc0])] 4
           [xc0; xc0; x41; xc0; xc0; xc0; xdb; xdc; xc0; x07] [x07]).
  - intros kp [<- | [<- | []]]; simpl; split; (discriminate || lia).
  - apply (BytesReader_delivers (line [(1, [x41]); (1, [xc0])]) [x07]).
Defined.

(** X8. Writing packets one after the other into an in-memory sink and
    then reading the sink back: every [WritePacket] succeeds, the sink
    holds the frames one after the other, and the successive [ReadPacket]
    calls return exactly the non-empty packets, in order, as complete
    packets, followed by an empty result with [isPrefix = true] and
    [io.EOF]; empty packets are lost. *)
Theorem write_then_read_all (ps : list (list byte)) (fuel : nat) :
  List.length (List.concat (map frame ps)) < fuel ->
  WritePackets ([] : BytesWriter) ps
  = (map (fun _ => None) ps, List.concat (map frame ps))
  /\ ReadPackets fuel (S (List.length (filter nonempty ps)))
       (snd (WritePackets ([] : BytesWriter) ps) : BytesReader)
     = Some (map complete (filter nonempty ps) ++ [mkResult [] true io.EOF],
             []).
Proof.
  intros Hfuel. rewrite WritePackets_bytes. split; [reflexivity|].
  simpl snd. apply (ReadPackets_stream ps (fuel := fuel) 0). simpl. exact Hfuel.
Qed.

Lemma write_then_read_all_witness :
  List.length (List.concat (map frame [[x41]; []; [xc0; xdb]])) < 12
  /\ ReadPackets 12 3
       (snd (WritePackets ([] : BytesWriter) [[x41]; []; [xc0; xdb]])
        : BytesReader)
     = Some ([complete [x41]; complete [xc0; xdb];
              mkResult [] true io.EOF], []).
Proof.
  split; [vm_compute; lia|].
  apply (proj2 (@write_then_read_all [[x41]; []; [xc0; xdb]] 12
                  ltac:(vm_compute; lia))).
Defined.

(** ** Line noise, truncation and the leading END *)

Lemma payload_prefix (p : list byte) :
  forall s t : list byte,
    s ++ t = spec_payload p ->
    exists q rest : list byte,
      p = q ++ rest
      /\ (s = spec_payload q \/ s = spec_payload q ++ [ESC]).
Proof.
  induction p as [|b p IH]; intros s t Heq.
  - apply app_eq_nil in Heq as [-> _]. exists [], []. split; [reflexivity|].
    now left.
  - destruct s as [|x s]; [exists [], (b :: p); split; [reflexivity|now left]|].
    rewrite payload_cons in Heq.
    assert (Hext : forall s0 : list byte,
               s0 ++ t = spec_payload p ->
               exists q rest,
                 b :: p = q ++ rest
                 /\ (spec_stuffed b ++ s0 = spec_payload q
                     \/ spec_stuffed b ++ s0 = spec_payload q ++ [ESC])).
    { intros s0 H0. destruct (IH s0 t H0) as (q & rest & -> & Hs).
      exists (b :: q), rest. split; [reflexivity|]. rewrite payload_cons.
      destruct Hs as [-> | ->]; [now left | right].
      now rewrite app_assoc. }
    destruct (stuffed_cases b) as [[_ E]|[[_ E]|[_ [_ E]]]];
      rewrite E in *; simpl in Heq; injection Heq as -> Heq.
    + destruct s as [|y s].
      * exists [], (b :: p). split; [reflexivity | now right].
      * simpl in Heq. injection Heq as -> Heq. now apply Hext.
    + destruct s as [|y s].
      * exists [], (b :: p). split; [reflexivity | now right].
      * simpl in Heq. injection Heq as -> Heq. now apply Hext.
    + now apply Hext.
Qed.

(** X9. The leading END of a frame flushes line noise: when bytes have been
    accumulated and a frame of a non-empty packet arrives, the call in
    progress returns the accumulated bytes at the frame's first END, and
    the next call returns the packet of the frame. *)
Theorem leading_END_flushes_noise {R : Type} `{io.Reader R}
    (r r' : R) (noise p : list byte) (fuel : nat) :
  noise <> [] -> p <> [] -> delivers r (frame p) r' ->
  exists r1 : R,
    ReadPacket_loop (S fuel) r noise = Some (complete noise, r1)
    /\ ReadPacket (List.length p + 1 + fuel) r1 = Some (complete p, r').
Proof.
  intros Hnoise Hne Hd. rewrite frame_spec in Hd. unfold spec_frame in Hd.
  simpl in Hd. destruct Hd as (r1 & Hr & Hd).
  apply delivers_app in Hd as (r2 & Hq & Hend). simpl in Hend.
  destruct Hend as (r3 & Hr2 & ->).
  exists r1. split; [now apply loop_END_complete|].
  unfold ReadPacket. rewrite <- Nat.add_assoc.
  erewrite loop_payload by exact Hq. now apply loop_END_complete.
Qed.

Lemma leading_END_flushes_noise_witness :
  [x07; x08] <> [] /\ [x41] <> []
  /\ ReadPacket_loop 1 (frame [x41] : BytesReader) [x07; x08]
     = Some (complete [x07; x08], [x41; xc0])
  /\ ReadPacket 2 ([x41; xc0] : BytesReader) = Some (complete [x41], []).
Proof.
  split; [discriminate|]. split; [discriminate|].
  destruct (@leading_END_flushes_noise BytesReader BytesReader_Reader
              (frame [x41]) [] [x07; x08] [x41] 0
              ltac:(discriminate) ltac:(discriminate)
              (BytesReader_delivers (frame [x41]) []))
    as (r1 & H1 & H2).
  assert (Hr1 : r1 = [x41; xc0]).
  { vm_compute in H1. now injection H1 as <-. }
  subst r1. split; [exact H1 | exact H2].
Defined.

(** X10. After a dangling ESC the leading END of a frame is not a
    delimiter: it is appended as a literal END, and the frame's packet is
    returned glued to the bytes accumulated before, whatever the packet
    and the accumulated bytes are. *)
Theorem dangling_ESC_swallows_leading_END {R : Type} `{io.Reader R}
    (r0 r r' : R) (noise p : list byte) (fuel : nat) :
  io.Read r0 = (io.mkRead 1 ESC None, r) -> delivers r (frame p) r' ->
  ReadPacket_loop (List.length p + 2 + fuel) r0 noise
  = Some (complete (noise ++ END :: p), r').
Proof.
  intros Hr0 Hd. rewrite frame_spec in Hd. unfold spec_frame in Hd.
  simpl in Hd. destruct Hd as (r1 & Hr & Hd).
  apply delivers_app in Hd as (r2 & Hq & Hend). simpl in Hend.
  destruct Hend as (r3 & Hr2 & ->).
  replace (List.length p + 2 + fuel) with (S (List.length p + S fuel)) by lia.
  erewrite loop_ESC; [|exact Hr0|exact Hr].
  erewrite loop_payload by exact Hq.
  change (unescape END) with END. rewrite <- app_assoc. simpl app.
  apply loop_END_complete; [exact Hr2|]. now destruct noise.
Qed.

Lemma dangling_ESC_swallows_leading_END_witness :
  io.Read (xdb :: frame [x41] : BytesReader)
  = (io.mkRead 1 ESC None, frame [x41])
  /\ ReadPacket 3 (xdb :: frame [x41] : BytesReader)
     = Some (complete [xc0; x41], []).
Proof.
  split; [reflexivity|].
  apply (@dangling_ESC_swallows_leading_END BytesReader BytesReader_Reader
           (xdb :: frame [x41]) (frame [x41]) [] [] [x41] 0 eq_refl).
  apply (BytesReader_delivers (frame [x41]) []).
Defined.

(** X11. A frame cut short never yields a complete packet: on any proper
    prefix of the frame of [p] followed by end of file, [ReadPacket]
    returns a prefix of [p] with [isPrefix = true] and [io.EOF]. *)
Theorem truncated_frame_gives_prefix (p s t : list byte) :
  frame p = s ++ t -> t <> [] ->
  exists q rest : list byte,
    p = q ++ rest
    /\ ReadPacket (S (List.length s)) (s : BytesReader)
       = Some (mkResult q true io.EOF, []).
Proof.
  intros Heq Ht. rewrite frame_spec in Heq. unfold spec_frame in Heq.
  destruct s as [|x s].
  { exists [], p. now split. }
  simpl in Heq. injection Heq as <- Heq.
  destruct (exists_last Ht) as (t' & e & ->).
  rewrite app_assoc in Heq. apply app_inj_tail in Heq as [Heq _].
  symmetry in Heq.
  destruct (payload_prefix p s t' Heq) as (q & rest & -> & Hs).
  exists q, rest. split; [reflexivity|].
  unfold ReadPacket. simpl List.length.
  erewrite (loop_END_empty (R := BytesReader)) by reflexivity.
  pose proof (payload_length q) as Hlen.
  destruct Hs as [-> | ->].
  - replace (List.length (spec_payload q))
      with (List.length q + List.length (filter reserved2 q)) by lia.
    pose proof (BytesReader_delivers (spec_payload q) []) as Hd.
    rewrite app_nil_r in Hd.
    rewrite <- Nat.add_succ_r. erewrite loop_payload by exact Hd.
    reflexivity.
  - rewrite length_app. simpl List.length.
    replace (S (List.length (spec_payload q) + 1))
      with (List.length q + S (S (List.length (filter reserved2 q))))
      by lia.
    erewrite loop_payload
      by exact (BytesReader_delivers (spec_payload q) [ESC]).
    reflexivity.
Qed.

Lemma truncated_frame_gives_prefix_witness :
  frame [x41; xc0; x42] = [xc0; x41; xdb] ++ [xdc; x42; xc0]
  /\ [xdc; x42; xc0] <> []
  /\ exists q rest : list byte,
       [x41; xc0; x42] = q ++ rest
       /\ ReadPacket 4 ([xc0; x41; xdb] : BytesReader)
          = Some (mkResult q true io.EOF, []).
Proof.
  split; [reflexivity|]. split; [discriminate|].
  apply (@truncated_frame_gives_prefix [x41; xc0; x42] [xc0; x41; xdb]
           [xdc; x42; xc0] eq_refl ltac:(discriminate)).
Defined.

(** ** Sequences of writes *)

Lemma Logged_Write {W : Type} `{io.Writer W}
    (w : W) (log : list (list byte)) (data : list byte) :
  io.Write (mkLogged w log) data
  = (fst (io.Write w data),
     mkLogged (snd (io.Write w data)) (log ++ [data])).
Proof.
  change (io.Write (mkLogged w log) data)
    with (let '(out, w') := io.Write w data in
          (out, mkLogged w' (log ++ [data]))).
  now destruct (io.Write w data).
Qed.

(** X12. Successive [WritePacket] calls make one [Write] call each on the
    underlying writer, in order, each with the complete frame of its
    packet, whether or not the writes fail; frames are never merged or
    split across calls. *)
Theorem WritePackets_one_write_each {W : Type} `{io.Writer W}
    (ps : list (list byte)) :
  forall (w : W) (log : list (list byte)),
    calls (snd (WritePackets (mkLogged w log) ps)) = log ++ map frame ps
    /\ List.length (fst (WritePackets (mkLogged w log) ps)) = List.length ps.
Proof.
  induction ps as [|p ps IH]; intros w log.
  - simpl. now rewrite app_nil_r.
  - change (WritePackets (mkLogged w log) (p :: ps))
      with (let '(err, w1) := WritePacket (mkLogged w log) p in
            let '(errs, w2) := WritePackets w1 ps in
            (err :: errs, w2)).
    rewrite WritePacket_unfold, Logged_Write. cbv beta iota. simpl snd.
    specialize (IH (snd (io.Write w (frame p))) (log ++ [frame p])).
    destruct (WritePackets
                (mkLogged (snd (io.Write w (frame p))) (log ++ [frame p]))
                ps) as [errs w2].
    simpl in *. destruct IH as [Hc Hl]. split.
    + now rewrite Hc, <- app_assoc.
    + now rewrite Hl.
Qed.

(** X13. Every complete packet that [ReadPacket] returns, from whatever
    reader and stream, lenient escapes included, is a packet that
    [WritePacket] carries unchanged: reading its frame returns it again. *)
Theorem complete_packet_resendable {R : Type} `{io.Reader R}
    (fuel : nat) (r r' : R) (res : Result) :
  ReadPacket fuel r = Some (res, r') -> res_isPrefix res = false ->
  ReadPacket (List.length (res_p res) + 2) (frame (res_p res) : BytesReader)
  = Some (res, []).
Proof.
  intros Hrun Hpre. unfold ReadPacket in Hrun.
  destruct (loop_complete_nonempty _ _ _ Hrun Hpre) as [Hne Herr].
  destruct res as [q pre e]. simpl in *. subst pre e.
  unfold ReadPacket.
  pose proof (BytesReader_delivers (frame q) []) as Hd.
  rewrite app_nil_r in Hd.
  rewrite <- (Nat.add_0_r (List.length q + 2)).
  now apply loop_frame.
Qed.

Lemma complete_packet_resendable_witness :
  ReadPacket 4 ([xdb; x41; xdb; xc0; xc0; x09] : BytesReader)
  = Some (complete [x41; xc0], [x09])
  /\ ReadPacket 4 (frame [x41; xc0] : BytesReader)
     = Some (complete [x41; xc0], []).
Proof.
  split; [reflexivity|].
  apply (@complete_packet_resendable BytesReader BytesReader_Reader 4
           [xdb; x41; xdb; xc0; xc0; x09] [x09] (complete [x41; xc0])
           eq_refl eq_refl).
Defined.
